(** * The intercept wrapper: dispatch and command execution

    A shallow embedding of [source/intercept/source/report/wrapper/Application.cc]:
    mode detection ([is_wrapper_call]), the two construction paths
    ([Application::from_envs], [Application::from_args]) and the pipeline of
    [Command::execute] (resolve, spawn, report, wait loop, exit code).

    Strings and paths are [string], C [int]s and process ids are [Z], the
    environment ([sys::env::Vars], a [std::map<std::string, std::string>]) is a
    [gmap string string].  Logging ([ApplicationLogConfig], [spdlog]) has no
    effect on any value computed here and is left out. *)

From Stdlib Require Import ZArith Ascii String.
From stdpp Require Import base option strings gmap list.

Local Open Scope Z_scope.

(** ** Results *)

(** [std::runtime_error], identified with its message. *)
Definition Error : Type := string.

(** Modelled from the spec: [rust::Result] of libresult, which is not part of
    the sources at hand.  It is the explicit success-or-error value of the
    specification; [map], [and_then] and [unwrap_or] are the combinators of
    the same names, a failure skipping every later stage and becoming the
    final error. *)
Inductive Result (T : Type) : Type :=
| Ok (value : T)
| Err (error : Error).

Arguments Ok {T} value.
Arguments Err {T} error.

Module result.

Definition map {T U : Type} (f : T → U) (r : Result T) : Result U :=
  match r with
  | Ok value => Ok (f value)
  | Err error => Err error
  end.

Definition and_then {T U : Type} (r : Result T) (f : T → Result U) : Result U :=
  match r with
  | Ok value => f value
  | Err error => Err error
  end.

Definition unwrap_or {T : Type} (r : Result T) (other : T) : T :=
  match r with
  | Ok value => value
  | Err _ => other
  end.

Definition is_ok {T : Type} (r : Result T) : bool :=
  match r with
  | Ok _ => true
  | Err _ => false
  end.

(** Modelled from the spec: [rust::merge], which joins independently obtained
    results into one tuple only if all of them succeeded and short-circuits
    on a failure, the leftmost failure being the one reported. *)
Definition merge {T1 T2 : Type} (r1 : Result T1) (r2 : Result T2) : Result (T1 * T2) :=
  and_then r1 (fun v1 => map (fun v2 => (v1, v2)) r2).

Definition merge3 {T1 T2 T3 : Type}
    (r1 : Result T1) (r2 : Result T2) (r3 : Result T3) : Result (T1 * T2 * T3) :=
  and_then r1 (fun v1 =>
  and_then r2 (fun v2 =>
  map (fun v3 => (v1, v2, v3)) r3)).

End result.

(** [std::optional<T>::value_or]. *)
Definition value_or {T : Type} (o : option T) (other : T) : T :=
  match o with
  | Some value => value
  | None => other
  end.

(** ** Data model *)

Abbreviation Vars := (gmap string string).

Record Session : Type := { destination : string }.

Record Execution : Type := {
  executable : string;
  arguments : list string;
  working_dir : string;
  environment : Vars;
}.

(** Modelled from the spec: the lifecycle events built by [wr::EventFactory]
    (its [start], [signal] and [terminate] members), a tagged variant. *)
Inductive Event : Type :=
| Start (pid ppid : Z) (execution : Execution)
| Signal (number : Z)
| Terminate (code : Z).

(** Modelled from the spec: [sys::ExitStatus], the result of one wait on the
    child, with the four observers the wrapper calls on it. *)
Inductive ExitStatus : Type :=
| Exited (code : Z)
| Signaled (signal : Z).

Module exit_status.

Definition is_exited (status : ExitStatus) : bool :=
  match status with Exited _ => true | Signaled _ => false end.

Definition is_signaled (status : ExitStatus) : bool :=
  match status with Exited _ => false | Signaled _ => true end.

Definition code (status : ExitStatus) : option Z :=
  match status with Exited c => Some c | Signaled _ => None end.

Definition signal (status : ExitStatus) : option Z :=
  match status with Exited _ => None | Signaled s => Some s end.

End exit_status.

(** [EXIT_FAILURE] of <cstdlib>. *)
Definition EXIT_FAILURE : Z := 1.

(** Modelled from the spec: [sys::Process], a spawned child, of which the
    wrapper reads the pid only. *)
Record Process : Type := { get_pid : Z }.

(** Modelled from the spec: [sys::Process::Builder], which gathers the
    executable, the arguments and the environment a process is built from. *)
Record Builder : Type := {
  program : string;
  parameters : list string;
  variables : Vars;
}.

Definition new_builder (file : string) : Builder :=
  {| program := file; parameters := []; variables := ∅ |}.

Definition add_arguments (b : Builder) (args : list string) : Builder :=
  {| program := program b; parameters := parameters b ++ args; variables := variables b |}.

Definition set_environment (b : Builder) (env : Vars) : Builder :=
  {| program := program b; parameters := parameters b; variables := env |}.

Record Command : Type := {
  session_ : Session;
  execution_ : Execution;
}.

(** ** Collaborators

    What the wrapper consumes through an interface only.  Each class gathers
    the members of one header; the theorems hold for every instance. *)

(** The names declared in [report/wrapper/Flags.h] and
    [report/wrapper/Environment.h]. *)
Class Names : Type := {
  KEY_DESTINATION : string;
  DESTINATION : string;
  EXECUTE : string;
  COMMAND : string;
}.

(** [flags::Arguments] and [flags::Parser::parse_or_exit] for the wrapper's
    three options. *)
Class Flags : Type := {
  Arguments_ : Type;
  as_string : Arguments_ → string → Result string;
  as_string_list : Arguments_ → string → Result (list string);
  parse_or_exit : Z → list string → Result Arguments_;
}.

(** libsys and the RPC clients, as seen by one run of the wrapper. *)
Class Host : Type := {
  (** [sys::env::from]: the inherited environment block as a mapping. *)
  env_from : list string → Vars;
  (** [sys::path::get_cwd]. *)
  get_cwd : Result string;
  (** [getppid]. *)
  getppid : Z;
  (** [SupervisorClient::resolve], on the session the client was built for. *)
  resolve : Session → Execution → Result Execution;
  (** [Process::Builder::spawn] (or [spawn_with_preload], chosen at build time). *)
  spawn : Builder → Result Process;
  (** The outcomes of the successive [child.wait(true)] calls on a child;
      a call made after the last of them never returns. *)
  wait_outcomes : Process → list (Result ExitStatus);
}.

(** ** Dispatch resolver *)

(** [std::filesystem::path::filename] on a POSIX path: what follows the last
    directory separator (empty when the path ends in one).  [component] is
    the candidate found so far, [rest] what is still to be scanned. *)
Fixpoint after_last_separator (component rest : string) : string :=
  match rest with
  | EmptyString => component
  | String c rest' =>
      if Ascii.eqb c "/"%char then after_last_separator rest' rest'
      else after_last_separator component rest'
  end.

Definition filename (p : string) : string := after_last_separator p p.

(** [argv[0]], for an [argv] that has an entry.  On an [argv] with no entry
    [argv[0]] is the terminating null pointer and building a path from it
    faults; the empty string stands there for a value the source does not
    have, and what is stated of the program of a wrapper-call is stated for
    a non-empty [argv]. *)
Definition argv0 (argv : list string) : string := default "" (head argv).

Definition is_wrapper_call (argc : Z) (argv : list string) : bool :=
  if bool_decide (argc > 0) then
    let cmd := argv0 argv in
    let prg := filename cmd in
    bool_decide (prg ≠ "wrapper")
  else false.

Module Wrapper.

Definition make_session `{Names} (environment : Vars) : Result Session :=
  match environment !! KEY_DESTINATION with
  | None => Err "Unknown destination."
  | Some value => Ok {| destination := value |}
  end.

(** The null-terminated [argv] as a vector: every entry, in order. *)
Definition from (argv : list string) : list string := argv.

Definition make_execution `{Host} (argv : list string) (environment : Vars) : Result Execution :=
  let program := argv0 argv in
  let arguments := from argv in
  result.map
    (fun working_dir =>
       {| executable := program; arguments := arguments;
          working_dir := working_dir; environment := environment |})
    get_cwd.

End Wrapper.

Module Supervisor.

Definition make_session `{Names, Flags} (args : Arguments_) : Result Session :=
  result.map (fun destination => {| destination := destination |})
    (as_string args DESTINATION).

Definition make_execution `{Names, Flags, Host}
    (args : Arguments_) (environment : Vars) : Result Execution :=
  let program := result.map (fun file => file) (as_string args EXECUTE) in
  let arguments := result.map (fun args => args) (as_string_list args COMMAND) in
  let working_dir := get_cwd in
  result.map
    (fun '(program, arguments, working_dir) =>
       {| executable := program; arguments := arguments;
          working_dir := working_dir; environment := environment |})
    (result.merge3 program arguments working_dir).

End Supervisor.

Definition make_command '((session, execution) : Session * Execution) : Command :=
  {| session_ := session; execution_ := execution |}.

Definition from_envs `{Names, Host} (argc : Z) (argv envp : list string) : Result Command :=
  let environment := env_from envp in
  let session := Wrapper.make_session environment in
  let execution := Wrapper.make_execution argv environment in
  result.map make_command (result.merge session execution).

Definition from_args `{Names, Flags, Host} (args : Arguments_) (envp : list string) : Result Command :=
  let environment := env_from envp in
  let session := Supervisor.make_session args in
  let execution := Supervisor.make_execution args environment in
  result.map make_command (result.merge session execution).

(** [Application::parse]: the parser declared for [DESTINATION], [EXECUTE]
    and [COMMAND]. *)
Definition parse `{Flags} (argc : Z) (argv : list string) : Result Arguments_ :=
  parse_or_exit argc argv.

(** [Application::command].  Both branches also configure and write the log,
    which does not change the result. *)
Definition command `{Names, Flags, Host} (argc : Z) (argv envp : list string) : Result Command :=
  if is_wrapper_call argc argv then from_envs argc argv envp
  else result.and_then (parse argc argv) (fun args => from_args args envp).

(** ** Command execution engine *)

(** What a run of [Command::execute] does to its surroundings. *)
Record World : Type := {
  (** the events handed to [InterceptorClient::report], oldest first *)
  reported : list Event;
  (** the builders [spawn] was called on, oldest first *)
  launched : list Builder;
  (** the children those calls created, oldest first *)
  children : list Process;
  (** the children a [sys::SignalForwarder] is in force for, innermost first *)
  forwarding : list Process;
  (** the number of [wait] calls made *)
  wait_calls : nat;
  (** for each [wait] call made, oldest first, the children whose
      [sys::SignalForwarder] was in force when it was made *)
  guarded_waits : list (list Process);
}.

Definition untouched : World :=
  {| reported := []; launched := []; children := []; forwarding := []; wait_calls := 0;
     guarded_waits := [] |}.

Definition report (event : Event) (w : World) : World :=
  {| reported := reported w ++ [event]; launched := launched w; children := children w;
     forwarding := forwarding w; wait_calls := wait_calls w;
     guarded_waits := guarded_waits w |}.

Definition record_spawn (b : Builder) (outcome : Result Process) (w : World) : World :=
  {| reported := reported w; launched := launched w ++ [b];
     children := children w ++ match outcome with Ok child => [child] | Err _ => [] end;
     forwarding := forwarding w; wait_calls := wait_calls w;
     guarded_waits := guarded_waits w |}.

(** The constructor and the destructor of [sys::SignalForwarder]. *)
Definition install_guard (child : Process) (w : World) : World :=
  {| reported := reported w; launched := launched w; children := children w;
     forwarding := child :: forwarding w; wait_calls := wait_calls w;
     guarded_waits := guarded_waits w |}.

Definition release_guard (w : World) : World :=
  {| reported := reported w; launched := launched w; children := children w;
     forwarding := tail (forwarding w); wait_calls := wait_calls w;
     guarded_waits := guarded_waits w |}.

Definition record_wait (w : World) : World :=
  {| reported := reported w; launched := launched w; children := children w;
     forwarding := forwarding w; wait_calls := S (wait_calls w);
     guarded_waits := guarded_waits w ++ [forwarding w] |}.

(** A stage of the pipeline: it changes the world and either returns a
    result or, [None], never returns (a [wait] that blocks for good). *)
Definition Action (T : Type) : Type := World → World * option (Result T).

Module action.

(** A collaborator's answer that leaves the world as it is. *)
Definition answer {T : Type} (r : Result T) : Action T := fun w => (w, Some r).

(** [Result::and_then] with a continuation that acts on the world. *)
Definition and_then {T U : Type} (a : Action T) (f : T → Action U) : Action U :=
  fun w =>
    match a w with
    | (w', Some (Ok value)) => f value w'
    | (w', Some (Err error)) => (w', Some (Err error))
    | (w', None) => (w', None)
    end.

(** [Result::map]. *)
Definition map {T U : Type} (f : T → U) (a : Action T) : Action U :=
  fun w =>
    match a w with
    | (w', Some r) => (w', Some (result.map f r))
    | (w', None) => (w', None)
    end.

(** [Result::on_success]: run [f] on the value, hand the result on as it is. *)
Definition on_success {T : Type} (a : Action T) (f : T → World → World) : Action T :=
  fun w =>
    match a w with
    | (w', Some (Ok value)) => (f value w', Some (Ok value))
    | other => other
    end.

End action.

(** [Process::Builder::spawn] as a stage. *)
Definition spawn_process `{Host} (b : Builder) : Action Process :=
  fun w => let outcome := spawn b in (record_spawn b outcome w, Some outcome).

(** The event of one wait round:
    [exit.is_signaled() ? signal(exit.signal().value()) : terminate(exit.code().value())].
    Each [value()] is read on the side where the optional holds one. *)
Definition exit_event (exit : ExitStatus) : Event :=
  match exit with
  | Signaled number => Signal number
  | Exited code => Terminate code
  end.

(** The loop's exit test,
    [status.map<bool>([](auto s) { return s.is_exited(); }).unwrap_or(false)]. *)
Definition exited (status : Result ExitStatus) : bool :=
  result.unwrap_or (result.map exit_status.is_exited status) false.

(** The body of [while (true)], once per outcome of [child.wait(true)]. *)
Fixpoint wait_loop (outcomes : list (Result ExitStatus)) : Action ExitStatus :=
  fun w =>
    match outcomes with
    | [] => (record_wait w, None)
    | status :: later =>
        let w1 := record_wait w in
        let w2 := match status with
                  | Ok exit => report (exit_event exit) w1
                  | Err _ => w1
                  end in
        if exited status then (w2, Some status) else wait_loop later w2
    end.

(** The third stage: the guard lives for the scope of the lambda, so it is
    released when, and only when, the loop returns. *)
Definition wait_for_exit `{Host} (child : Process) : Action ExitStatus :=
  fun w =>
    match wait_loop (wait_outcomes child) (install_guard child w) with
    | (w', Some status) => (release_guard w', Some status)
    | (w', None) => (w', None)
    end.

(** The last stage, [status.code().value_or(EXIT_FAILURE)]. *)
Definition exit_code (status : ExitStatus) : Z :=
  value_or (exit_status.code status) EXIT_FAILURE.

(** [Process::Builder(execution.executable).add_arguments(...).set_environment(...)]. *)
Definition builder_for (execution : Execution) : Builder :=
  set_environment
    (add_arguments (new_builder (executable execution)) (arguments execution))
    (environment execution).

(** The second stage: spawn what the supervisor answered and report the start. *)
Definition spawn_and_report `{Host} (execution : Execution) : Action Process :=
  action.on_success
    (spawn_process (builder_for execution))
    (fun child => report (Start (get_pid child) getppid execution)).

(** The pipeline up to the final status: resolve, spawn and report, wait. *)
Definition supervise `{Host} (c : Command) : Action ExitStatus :=
  action.and_then
    (action.and_then (action.answer (resolve (session_ c) (execution_ c)))
       spawn_and_report)
    wait_for_exit.

Definition execute `{Host} (c : Command) : Action Z :=
  action.map exit_code (supervise c).

(** Modelled from the spec: the dispatch entry point (the [main] of libmain),
    which builds the command and, if there is one, calls [execute] on it
    exactly once. *)
Definition run `{Names, Flags, Host} (argc : Z) (argv envp : list string) : Action Z :=
  action.and_then (action.answer (command argc argv envp)) execute.

(** The signal numbers of the wait rounds whose status is signaled. *)
Definition signal_rounds (outcomes : list (Result ExitStatus)) : list Z :=
  omap (fun status => match status with
                      | Ok (Signaled number) => Some number
                      | _ => None
                      end) outcomes.

(** An execution is built from three lookups: it exists only if each of them
    succeeded, and then holds their values and the environment. *)
Definition built_from (program : Result string) (arguments : Result (list string))
    (working_dir : Result string) (environment : Vars) (built : Result Execution) : Prop :=
  match program, arguments, working_dir with
  | Ok file, Ok args, Ok dir =>
      built = Ok {| executable := file; arguments := args;
                    working_dir := dir; environment := environment |}
  | _, _, _ => result.is_ok built = false
  end.

(** No directory separator occurs in [p]. *)
Fixpoint plain_name (p : string) : bool :=
  match p with
  | EmptyString => true
  | String c rest => negb (Ascii.eqb c "/"%char) && plain_name rest
  end.

Definition is_start (event : Event) : bool :=
  match event with Start _ _ _ => true | _ => false end.

Definition is_terminate (event : Event) : bool :=
  match event with Terminate _ => true | _ => false end.

Definition count_events (kind : Event → bool) (events : list Event) : nat :=
  length (List.filter kind events).

(** ** Concrete collaborators

    Instances on which the statements below are evaluated. *)

Definition bear_names : Names :=
  {| KEY_DESTINATION := "INTERCEPT_REPORT_DESTINATION";
     DESTINATION := "--destination";
     EXECUTE := "--execute";
     COMMAND := "--" |}.

(** An environment entry [KEY=VALUE], cut at its first [=]. *)
Fixpoint split_entry (entry : string) : string * string :=
  match entry with
  | EmptyString => (EmptyString, EmptyString)
  | String c rest =>
      if Ascii.eqb c "="%char then (EmptyString, rest)
      else let '(key, value) := split_entry rest in (String c key, value)
  end.

Definition posix_env_from (envp : list string) : Vars :=
  list_to_map (split_entry <$> envp).

(** Flags as a map from an option to its values: [--flag value] pairs, then
    [--] and the command. *)
Fixpoint scan_flags (words : list string) (found : gmap string (list string))
    : Result (gmap string (list string)) :=
  match words with
  | [] => Ok found
  | flag :: rest =>
      if bool_decide (flag = "--") then Ok (<[flag := rest]> found)
      else match rest with
           | [] => Err "Missing value."
           | value :: rest' => scan_flags rest' (<[flag := [value]]> found)
           end
  end.

Definition simple_flags : Flags :=
  {| Arguments_ := gmap string (list string);
     as_string := fun args key =>
       match args !! key with
       | Some [value] => Ok value
       | Some _ => Err "Parameter is not a single string."
       | None => Err "Parameter is not available."
       end;
     as_string_list := fun args key =>
       match args !! key with
       | Some values => Ok values
       | None => Err "Parameter is not available."
       end;
     parse_or_exit := fun argc argv => scan_flags (tail argv) ∅ |}.

(** A host whose working directory, supervisor, spawn and waits answer as given. *)
Definition scripted_host (cwd : Result string) (supervisor : Execution → Result Execution)
    (spawned : Result Process) (outcomes : list (Result ExitStatus)) : Host :=
  {| env_from := posix_env_from;
     get_cwd := cwd;
     getppid := 41;
     resolve := fun _ execution => supervisor execution;
     spawn := fun _ => spawned;
     wait_outcomes := fun _ => outcomes |}.

Definition echo_execution : Execution :=
  {| executable := "/bin/echo"; arguments := ["echo"; "hi"];
     working_dir := "/tmp"; environment := ∅ |}.

Definition echo_command : Command :=
  {| session_ := {| destination := "/tmp/sess" |}; execution_ := echo_execution |}.

Definition echo_child : Process := {| get_pid := 42 |}.

(** The child prints and exits with code 0 at the first wait. *)
Definition echo_host : Host :=
  scripted_host (Ok "/tmp") Ok (Ok echo_child) [Ok (Exited 0)].

(** The child is stopped and continued, then exits with code 3. *)
Definition signalled_host : Host :=
  scripted_host (Ok "/tmp") Ok (Ok echo_child)
    [Ok (Signaled 19); Ok (Signaled 18); Ok (Exited 3)].

(** The first wait fails, the second sees the child exit with code 0. *)
Definition failing_wait_host : Host :=
  scripted_host (Ok "/tmp") Ok (Ok echo_child) [Err "wait failed"; Ok (Exited 0)].

Definition denying_host : Host :=
  scripted_host (Ok "/tmp") (fun _ => Err "denied") (Ok echo_child) [Ok (Exited 0)].

Definition unspawnable_host : Host :=
  scripted_host (Ok "/tmp") Ok (Err "spawn failed") [].

(** The supervisor answers with the full path of the compiler. *)
Definition rewriting_host : Host :=
  scripted_host (Ok "/tmp")
    (fun execution =>
       Ok {| executable := "/usr/bin/cc"; arguments := arguments execution;
             working_dir := working_dir execution; environment := environment execution |})
    (Ok echo_child) [Ok (Exited 0)].

Definition no_cwd_host : Host :=
  scripted_host (Err "getcwd failed") Ok (Ok echo_child) [Ok (Exited 0)].

(** The invocations: as [wrapper] with flags, and as the compiler [cc]. *)
Definition wrapper_argv : list string :=
  ["/usr/local/bin/wrapper"; "--destination"; "/tmp/sess"; "--execute"; "/bin/echo";
   "--"; "echo"; "hi"].

Definition cc_argv : list string := ["/usr/lib/bear/wrapper.d/cc"; "-c"; "a.c"].

(** The flags of [wrapper_argv], parsed. *)
Definition echo_flags : gmap string (list string) :=
  {[ "--destination" := ["/tmp/sess"]; "--execute" := ["/bin/echo"]; "--" := ["echo"; "hi"] ]}.

(** A compiler call before and after the supervisor resolved it. *)
Definition cc_command : Command :=
  {| session_ := {| destination := "/tmp/sess" |};
     execution_ := {| executable := "cc"; arguments := ["cc"; "-c"; "a.c"];
                      working_dir := "/tmp"; environment := {["PATH" := "/usr/bin"]} |} |}.

Definition cc_resolved : Execution :=
  {| executable := "/usr/bin/cc"; arguments := ["cc"; "-c"; "a.c"];
     working_dir := "/tmp"; environment := {["PATH" := "/usr/bin"]} |}.

(** The command of [cc_argv] when the destination variable is [/tmp/sess]. *)
Definition sess_command : Command :=
  {| session_ := {| destination := "/tmp/sess" |};
     execution_ := {| executable := "/usr/lib/bear/wrapper.d/cc"; arguments := cc_argv;
                      working_dir := "/tmp";
                      environment := {["INTERCEPT_REPORT_DESTINATION" := "/tmp/sess"]} |} |}.

(** ** The wait loop in closed form *)

(** The rounds that do not leave the loop: the outcomes before the first
    exited status. *)
Fixpoint until_exit (outcomes : list (Result ExitStatus)) : list (Result ExitStatus) :=
  match outcomes with
  | [] => []
  | status :: later => if exited status then [] else status :: until_exit later
  end.

(** The status the loop returns: the first exited one, if there is one. *)
Fixpoint leaving_status (outcomes : list (Result ExitStatus)) : option (Result ExitStatus) :=
  match outcomes with
  | [] => None
  | status :: later => if exited status then Some status else leaving_status later
  end.

(** What the round that leaves the loop reports. *)
Definition closing_events (leaving : option (Result ExitStatus)) : list Event :=
  match leaving with
  | Some (Ok exit) => [exit_event exit]
  | _ => []
  end.

(** The child is killed by signal 9; the wait after that finds no child. *)
Definition killed_host : Host :=
  scripted_host (Ok "/tmp") Ok (Ok echo_child) [Ok (Signaled 9); Err "No child processes"].

(** An invocation as [wrapper] that names no executable, and its flags. *)
Definition no_execute_argv : list string :=
  ["/usr/local/bin/wrapper"; "--destination"; "/tmp/sess"; "--"; "echo"; "hi"].

Definition no_execute_flags : gmap string (list string) :=
  {[ "--destination" := ["/tmp/sess"]; "--" := ["echo"; "hi"] ]}.

(** An environment that binds the destination variable. *)
Definition sess_envp : list string := ["INTERCEPT_REPORT_DESTINATION=/tmp/sess"].

(** Other flags than [simple_flags]: nothing parses and nothing is found. *)
Definition no_flags : Flags :=
  {| Arguments_ := unit;
     as_string := fun _ _ => Err "Parameter is not available.";
     as_string_list := fun _ _ => Err "Parameter is not available.";
     parse_or_exit := fun _ _ => Err "Unrecognized parameter." |}.

(** ** The wait loop *)

Section wait_loop_facts.

Implicit Types (w : World) (outcomes before after : list (Result ExitStatus)).

(** [exit_event] in terms of the observers the source calls. *)
Lemma exit_event_by_observers (exit : ExitStatus) :
  (if exit_status.is_signaled exit
   then Signal <$> exit_status.signal exit
   else Terminate <$> exit_status.code exit) = Some (exit_event exit).
Proof. by destruct exit. Qed.

(** A child that eventually exits: the outcomes split at the first exited
    status. *)
Lemma first_exit outcomes :
  Exists (fun status => exited status = true) outcomes →
  ∃ before C after,
    outcomes = before ++ Ok (Exited C) :: after
    ∧ Forall (fun status => exited status = false) before.
Proof.
  induction outcomes as [|status outcomes IH]; intros Hexits; [by inversion Hexits|].
  destruct (exited status) eqn:Hstatus.
  - destruct status as [[C|number]|error]; [|discriminate Hstatus..].
    by exists [], C, outcomes.
  - destruct IH as (before & C & after & -> & Hbefore).
    { inversion Hexits as [? ? Hhead|]; [congruence|done]. }
    exists (status :: before), C, after. split; [done|by constructor].
Qed.

(** A failed wait reports nothing and the loop waits again. *)
Lemma wait_loop_after_failure error outcomes w :
  wait_loop (Err error :: outcomes) w = wait_loop outcomes (record_wait w).
Proof. reflexivity. Qed.

(** A signaled round reports its signal and the loop waits again. *)
Lemma wait_loop_after_signal number outcomes w :
  wait_loop (Ok (Signaled number) :: outcomes) w
  = wait_loop outcomes (report (Signal number) (record_wait w)).
Proof. reflexivity. Qed.

(** The loop touches neither the children nor the guard. *)
Lemma wait_loop_frame outcomes w :
  launched (wait_loop outcomes w).1 = launched w
  ∧ children (wait_loop outcomes w).1 = children w
  ∧ forwarding (wait_loop outcomes w).1 = forwarding w.
Proof.
  revert w. induction outcomes as [|status later IH]; intros w; [done|].
  cbn [wait_loop]. destruct (exited status).
  - by destruct status.
  - destruct (IH (match status with
                  | Ok exit => report (exit_event exit) (record_wait w)
                  | Err _ => record_wait w
                  end)) as (-> & -> & ->).
    by destruct status.
Qed.


(** Rounds that do not leave the loop, then an exit with code [C]. *)
Lemma wait_loop_reaches_exit before C after w :
  Forall (fun status => exited status = false) before →
  wait_loop (before ++ Ok (Exited C) :: after) w
  = ({| reported := reported w ++ (Signal <$> signal_rounds before) ++ [Terminate C];
        launched := launched w; children := children w; forwarding := forwarding w;
        wait_calls := wait_calls w + S (length before);
        guarded_waits := guarded_waits w ++ replicate (S (length before)) (forwarding w) |},
     Some (Ok (Exited C))).
Proof.
  intros Hbefore. revert w.
  induction Hbefore as [|status before Hstatus _ IH]; intros w.
  - cbn. by rewrite Nat.add_1_r.
  - cbn [app wait_loop]. rewrite Hstatus, IH.
    destruct status as [[C'|number]|error]; [done| |]; cbn;
      rewrite ?Nat.add_succ_r, <- ?app_assoc; done.
Qed.

(** While every wait fails the loop does not return. *)
Lemma wait_loop_only_failures outcomes w :
  Forall (fun status => result.is_ok status = false) outcomes →
  wait_loop outcomes w
  = ({| reported := reported w; launched := launched w; children := children w;
        forwarding := forwarding w; wait_calls := wait_calls w + S (length outcomes);
        guarded_waits := guarded_waits w ++ replicate (S (length outcomes)) (forwarding w) |},
     None).
Proof.
  intros Hfail. revert w.
  induction Hfail as [|status outcomes Hstatus _ IH]; intros w.
  - cbn. by rewrite Nat.add_1_r.
  - destruct status as [exit|error]; [done|].
    rewrite wait_loop_after_failure, IH. cbn. by rewrite !Nat.add_succ_r, <- app_assoc.
Qed.

End wait_loop_facts.

(** The loop only adds to what was reported. *)
Lemma wait_loop_reports_more (outcomes : list (Result ExitStatus)) (w : World) :
  ∃ later, reported (wait_loop outcomes w).1 = reported w ++ later.
Proof.
  revert w. induction outcomes as [|status outcomes IH]; intros w.
  - exists []. cbn. by rewrite app_nil_r.
  - cbn [wait_loop]. destruct (exited status).
    + destruct status as [exit|error]; cbn; [by eexists | exists []; by rewrite app_nil_r].
    + destruct status as [exit|error].
      * destruct (IH (report (exit_event exit) (record_wait w))) as [later ->].
        cbn. rewrite <- app_assoc. by eexists.
      * apply (IH (record_wait w)).
Qed.

(** The result of the loop and what it reports depend on the world only
    through what was reported before. *)
Lemma wait_loop_reports_only (outcomes : list (Result ExitStatus)) (w1 w2 : World) :
  reported w1 = reported w2 →
  (wait_loop outcomes w1).2 = (wait_loop outcomes w2).2
  ∧ reported (wait_loop outcomes w1).1 = reported (wait_loop outcomes w2).1.
Proof.
  revert w1 w2. induction outcomes as [|status outcomes IH]; intros w1 w2 Hsame; [done|].
  cbn [wait_loop]. destruct (exited status).
  - destruct status; cbn; by rewrite ?Hsame.
  - apply IH. destruct status; cbn; by rewrite ?Hsame.
Qed.

(** A wait outcome that is a failure changes neither the result of the loop
    nor what it reports. *)
Lemma wait_loop_skips_failure (before after : list (Result ExitStatus)) error (w : World) :
  (wait_loop (before ++ Err error :: after) w).2 = (wait_loop (before ++ after) w).2
  ∧ reported (wait_loop (before ++ Err error :: after) w).1
    = reported (wait_loop (before ++ after) w).1.
Proof.
  revert w. induction before as [|status before IH]; intros w.
  - rewrite !app_nil_l, wait_loop_after_failure. by apply wait_loop_reports_only.
  - cbn [app wait_loop]. destruct (exited status); [done|apply IH].
Qed.

Lemma no_start_among_signals (numbers : list Z) :
  List.filter is_start (Signal <$> numbers) = [].
Proof. by induction numbers. Qed.

Lemma no_terminate_among_signals (numbers : list Z) :
  List.filter is_terminate (Signal <$> numbers) = [].
Proof. by induction numbers. Qed.

(** ** The execution engine *)

Section engine.

Context `{Host}.

Implicit Types (c : Command) (w : World) (child : Process) (execution : Execution).

Lemma builder_for_fields execution :
  builder_for execution
  = {| program := executable execution; parameters := arguments execution;
       variables := environment execution |}.
Proof. reflexivity. Qed.

(** The run in which every stage succeeds. *)
Lemma supervise_completes c w execution child before C after :
  resolve (session_ c) (execution_ c) = Ok execution →
  spawn (builder_for execution) = Ok child →
  wait_outcomes child = before ++ Ok (Exited C) :: after →
  Forall (fun status => exited status = false) before →
  supervise c w
  = ({| reported := reported w ++ Start (get_pid child) getppid execution
                      :: (Signal <$> signal_rounds before) ++ [Terminate C];
        launched := launched w ++ [builder_for execution];
        children := children w ++ [child];
        forwarding := forwarding w;
        wait_calls := wait_calls w + S (length before);
        guarded_waits := guarded_waits w
                           ++ replicate (S (length before)) (child :: forwarding w) |},
     Some (Ok (Exited C))).
Proof.
  intros Hresolve Hspawn Hwait Hbefore.
  unfold supervise, action.and_then, action.answer, spawn_and_report,
    action.on_success, spawn_process, wait_for_exit.
  rewrite Hresolve, Hspawn, Hwait, wait_loop_reaches_exit by done.
  cbn. by rewrite <- app_assoc.
Qed.

(** The stages before the wait, when resolve and spawn succeed. *)
Lemma supervise_spawned c w execution child :
  resolve (session_ c) (execution_ c) = Ok execution →
  spawn (builder_for execution) = Ok child →
  supervise c w
  = wait_for_exit child
      (report (Start (get_pid child) getppid execution)
         (record_spawn (builder_for execution) (Ok child) w)).
Proof.
  intros Hresolve Hspawn.
  unfold supervise, action.and_then, action.answer, spawn_and_report,
    action.on_success, spawn_process.
  by rewrite Hresolve, Hspawn.
Qed.

(** The wait stage leaves the spawn records alone, adds to the reports, and
    gives the guard back exactly when it returns. *)
Lemma wait_for_exit_frame child w :
  launched (wait_for_exit child w).1 = launched w
  ∧ children (wait_for_exit child w).1 = children w
  ∧ (∃ later, reported (wait_for_exit child w).1 = reported w ++ later)
  ∧ forwarding (wait_for_exit child w).1
    = match (wait_for_exit child w).2 with
      | Some _ => forwarding w
      | None => child :: forwarding w
      end.
Proof.
  unfold wait_for_exit.
  pose proof (wait_loop_frame (wait_outcomes child) (install_guard child w)) as (Hl & Hc & Hf).
  pose proof (wait_loop_reports_more (wait_outcomes child) (install_guard child w)) as Hr.
  destruct (wait_loop _ _) as [w' [status|]]; cbn in *; rewrite ?Hf; done.
Qed.

(** C2. When resolve and spawn succeed and the child eventually exits, what
    the run reports is one [Start], then one [Signal] for each wait round
    whose status is signaled, in the order of the rounds, then one
    [Terminate]; no other [Start] and no other [Terminate] is among them. *)
Theorem reported_sequence c w execution child before C after :
  resolve (session_ c) (execution_ c) = Ok execution →
  spawn (builder_for execution) = Ok child →
  wait_outcomes child = before ++ Ok (Exited C) :: after →
  Forall (fun status => exited status = false) before →
  ∃ events,
    reported (execute c w).1 = reported w ++ events
    ∧ events = [Start (get_pid child) getppid execution]
               ++ (Signal <$> signal_rounds before) ++ [Terminate C]
    ∧ count_events is_start events = 1%nat
    ∧ count_events is_terminate events = 1%nat
    ∧ (execute c w).2 = Some (Ok C).
Proof.
  intros Hresolve Hspawn Hwait Hbefore. eexists. split; [|split; [reflexivity|]].
  - unfold execute, action.map.
    by rewrite (supervise_completes c w execution child before C after).
  - unfold execute, action.map.
    rewrite (supervise_completes c w execution child before C after) by done.
    unfold count_events. cbn [app List.filter is_start is_terminate length].
    rewrite !List.filter_app. cbn [List.filter is_start is_terminate].
    by rewrite no_start_among_signals, no_terminate_among_signals.
Qed.

(** C4. A failure of resolve, or of spawn after resolve, is what [execute]
    returns; nothing is reported, no child exists afterwards and nothing is
    waited for.  After a failed resolve the world is as it was: spawn was
    not even called. *)
Theorem failure_before_child_reports_nothing c w error :
  resolve (session_ c) (execution_ c) = Err error
  ∨ (∃ execution, resolve (session_ c) (execution_ c) = Ok execution
                  ∧ spawn (builder_for execution) = Err error) →
  (execute c w).2 = Some (Err error)
  ∧ reported (execute c w).1 = reported w
  ∧ children (execute c w).1 = children w
  ∧ wait_calls (execute c w).1 = wait_calls w
  ∧ (resolve (session_ c) (execution_ c) = Err error → (execute c w).1 = w).
Proof.
  unfold execute, supervise, action.map, action.and_then, action.answer,
    spawn_and_report, action.on_success, spawn_process.
  intros [Hresolve|(execution & Hresolve & Hspawn)]; rewrite Hresolve.
  - done.
  - rewrite Hspawn. cbn. by rewrite app_nil_r.
Qed.

(** C7. The child is spawned from the executable, the arguments and the
    environment of the execution resolve answered, and the first event
    reported carries the pid of the child, [getppid()] and that execution. *)
Theorem spawn_uses_resolved_execution c w execution child :
  resolve (session_ c) (execution_ c) = Ok execution →
  spawn (builder_for execution) = Ok child →
  launched (execute c w).1
  = launched w ++ [{| program := executable execution;
                      parameters := arguments execution;
                      variables := environment execution |}]
  ∧ children (execute c w).1 = children w ++ [child]
  ∧ ∃ later, reported (execute c w).1
             = reported w ++ Start (get_pid child) getppid execution :: later.
Proof.
  intros Hresolve Hspawn.
  assert ((execute c w).1 = (supervise c w).1) as ->.
  { unfold execute, action.map. by destruct (supervise c w) as [w' [status|]]. }
  rewrite (supervise_spawned c w execution child) by done.
  destruct (wait_for_exit_frame child
              (report (Start (get_pid child) getppid execution)
                 (record_spawn (builder_for execution) (Ok child) w)))
    as (-> & -> & [later ->] & _).
  cbn. repeat split. exists later. by rewrite <- app_assoc.
Qed.

End engine.

(** ** The dispatch resolver *)

Lemma after_last_separator_plain (component p : string) :
  plain_name p = true → after_last_separator component p = component.
Proof.
  revert component. induction p as [|c p IH]; intros component; [done|].
  cbn. destruct (Ascii.eqb c "/"%char); [done|apply IH].
Qed.

Lemma after_last_separator_app (component dir base : string) :
  after_last_separator component (dir +:+ String "/"%char base) = filename base.
Proof.
  revert component. induction dir as [|c dir IH]; intros component; [done|].
  simpl. destruct (Ascii.eqb c "/"%char); apply IH.
Qed.

(** The file name of a name without directories is the name itself. *)
Lemma filename_of_name (base : string) : plain_name base = true → filename base = base.
Proof. apply after_last_separator_plain. Qed.

(** The file name of [dir/base] is [base]. *)
Lemma filename_of_path (dir base : string) :
  plain_name base = true → filename (dir +:+ String "/"%char base) = base.
Proof.
  intros Hbase. unfold filename at 1.
  by rewrite after_last_separator_app, filename_of_name.
Qed.

Section dispatch.

Context `{Names, Flags, Host}.

Implicit Types (argc : Z) (argv envp : list string) (args : Arguments_) (w : World).

(** A command that could not be built is not executed: the run ends with the
    error of the construction and the world is as it was. *)
Lemma run_without_command argc argv envp w error :
  command argc argv envp = Err error → run argc argv envp w = (w, Some (Err error)).
Proof. intros Hcommand. unfold run, action.and_then, action.answer. by rewrite Hcommand. Qed.

Lemma merge_needs_execution {T : Type} (session : Result T) (execution : Result Execution) :
  result.is_ok execution = false → result.is_ok (result.merge session execution) = false.
Proof. by destruct session, execution. Qed.

Lemma map_keeps_failure {T U : Type} (f : T → U) (r : Result T) :
  result.is_ok (result.map f r) = result.is_ok r.
Proof. by destruct r. Qed.

Lemma failure_has_error {T : Type} (r : Result T) :
  result.is_ok r = false → ∃ error, r = Err error.
Proof. destruct r; [done|by eexists]. Qed.

(** C5. With at least one argument, the file name of [argv[0]] decides the
    construction path: [wrapper] takes the supervisor-call path (parse the
    flags, then [from_args]), any other name the wrapper-call path
    ([from_envs]). *)
Theorem mode_dispatch first rest envp :
  let argv := first :: rest in
  let argc := Z.of_nat (length argv) in
  (filename first = "wrapper" →
     is_wrapper_call argc argv = false
     ∧ command argc argv envp
       = result.and_then (parse argc argv) (fun args => from_args args envp))
  ∧ (filename first ≠ "wrapper" →
     is_wrapper_call argc argv = true
     ∧ command argc argv envp = from_envs argc argv envp).
Proof.
  intros argv argc.
  assert (argc > 0) as Hargc by (unfold argc, argv; cbn [length]; lia).
  unfold command, is_wrapper_call. rewrite (bool_decide_eq_true_2 _ Hargc).
  cbn [argv0 argv head default id].
  split; intros Hname.
  - by rewrite bool_decide_eq_false_2 by (intros Hne; by apply Hne).
  - by rewrite bool_decide_eq_true_2.
Qed.

(** C10. With [argc = 0] the run is a supervisor-call: [is_wrapper_call] is
    false and the flags are parsed. *)
Theorem empty_invocation_is_supervisor_call argv envp :
  is_wrapper_call 0 argv = false
  ∧ command 0 argv envp
    = result.and_then (parse 0 argv) (fun args => from_args args envp).
Proof. done. Qed.

(** C6. When the environment has no binding for the destination variable,
    the wrapper-call construction fails with [Unknown destination.]: there
    is no command, and a run that takes this path spawns nothing. *)
Theorem missing_destination_fails argc argv envp w :
  env_from envp !! KEY_DESTINATION = None →
  Wrapper.make_session (env_from envp) = Err "Unknown destination."
  ∧ from_envs argc argv envp = Err "Unknown destination."
  ∧ (is_wrapper_call argc argv = true →
       run argc argv envp w = (w, Some (Err "Unknown destination."))).
Proof.
  intros Hmissing.
  assert (from_envs argc argv envp = Err "Unknown destination.") as Hfails.
  { unfold from_envs, Wrapper.make_session. by rewrite Hmissing. }
  split; [|split; [done|]].
  - unfold Wrapper.make_session. by rewrite Hmissing.
  - intros Hwrapper. apply run_without_command. unfold command. by rewrite Hwrapper.
Qed.

(** C9, as the code has it.  The destination of a command is the value the
    destination variable is bound to in the environment (wrapper-call) or
    the value of the destination flag (supervisor-call).  Nothing asks for
    that value to be non-empty. *)
Theorem destination_is_the_configured_value argc argv envp args c :
  (from_envs argc argv envp = Ok c →
     env_from envp !! KEY_DESTINATION = Some (destination (session_ c)))
  ∧ (from_args args envp = Ok c →
     as_string args DESTINATION = Ok (destination (session_ c))).
Proof.
  split.
  - unfold from_envs, Wrapper.make_session, Wrapper.make_execution.
    destruct (env_from envp !! KEY_DESTINATION) as [value|]; [|done].
    destruct get_cwd; [|done]. by intros [= <-].
  - unfold from_args, Supervisor.make_session.
    destruct (as_string args DESTINATION) as [value|]; [|done].
    destruct (Supervisor.make_execution args (env_from envp)); [|done].
    by intros [= <-].
Qed.

End dispatch.

(** ** The statements on concrete runs *)

(** The same run reports [Start], [Signal 19], [Signal 18], [Terminate 3]. *)
Lemma reported_sequence_witness :
  ∃ events,
    reported (@execute signalled_host echo_command untouched).1 = [] ++ events
    ∧ events = [Start 42 41 echo_execution] ++ [Signal 19; Signal 18] ++ [Terminate 3]
    ∧ count_events is_start events = 1%nat
    ∧ count_events is_terminate events = 1%nat
    ∧ (@execute signalled_host echo_command untouched).2 = Some (Ok 3).
Proof.
  apply (@reported_sequence signalled_host echo_command untouched echo_execution
           echo_child [Ok (Signaled 19); Ok (Signaled 18)] 3 []).
  - reflexivity.
  - reflexivity.
  - reflexivity.
  - repeat constructor.
Defined.

(** C3 fails on this run: the first wait fails, yet [execute] waits a second
    time and returns the exit code 0 instead of the error of the wait. *)
Lemma failed_wait_does_not_abort :
  @wait_outcomes failing_wait_host echo_child = [Err "wait failed"; Ok (Exited 0)]
  ∧ (@execute failing_wait_host echo_command untouched).2 = Some (Ok 0)
  ∧ (@execute failing_wait_host echo_command untouched).2 ≠ Some (Err "wait failed")
  ∧ wait_calls (@execute failing_wait_host echo_command untouched).1 = 2%nat
  ∧ reported (@execute failing_wait_host echo_command untouched).1
    = [Start 42 41 echo_execution; Terminate 0].
Proof.
  split; [reflexivity|]. split; [reflexivity|]. split; [|split; reflexivity].
  vm_compute. discriminate.
Qed.

(** The supervisor denies the execution; with another host spawn fails. *)
Lemma failure_before_child_reports_nothing_witness :
  (@execute denying_host echo_command untouched) = (untouched, Some (Err "denied"))
  ∧ (@execute unspawnable_host echo_command untouched).2 = Some (Err "spawn failed")
  ∧ reported (@execute unspawnable_host echo_command untouched).1 = []
  ∧ children (@execute unspawnable_host echo_command untouched).1 = [].
Proof.
  destruct (@failure_before_child_reports_nothing denying_host echo_command untouched
              "denied") as (Hresult & _ & _ & _ & Hworld).
  { left. reflexivity. }
  destruct (@failure_before_child_reports_nothing unspawnable_host echo_command untouched
              "spawn failed") as (Hresult' & Hreported & Hchildren & _).
  { right. exists echo_execution. split; reflexivity. }
  split; [|by repeat split].
  rewrite (surjective_pairing (@execute denying_host echo_command untouched)).
  rewrite Hresult, Hworld; reflexivity.
Defined.

(** The supervisor rewrites [cc] to [/usr/bin/cc]: that is what is spawned
    and what the start event carries. *)
Lemma spawn_uses_resolved_execution_witness :
  launched (@execute rewriting_host cc_command untouched).1
  = [] ++ [{| program := "/usr/bin/cc"; parameters := ["cc"; "-c"; "a.c"];
              variables := {["PATH" := "/usr/bin"]} |}]
  ∧ children (@execute rewriting_host cc_command untouched).1 = [] ++ [echo_child]
  ∧ ∃ later, reported (@execute rewriting_host cc_command untouched).1
             = [] ++ Start 42 41 cc_resolved :: later.
Proof.
  apply (@spawn_uses_resolved_execution rewriting_host cc_command untouched cc_resolved
           echo_child); reflexivity.
Defined.

(** Invoked as [wrapper] the flags are parsed; invoked as [cc] the
    environment is read. *)
Lemma mode_dispatch_witness :
  (is_wrapper_call 8 wrapper_argv = false
   ∧ @command bear_names simple_flags echo_host 8 wrapper_argv []
     = result.and_then (@parse simple_flags 8 wrapper_argv)
         (fun args => @from_args bear_names simple_flags echo_host args []))
  ∧ (is_wrapper_call 3 cc_argv = true
     ∧ @command bear_names simple_flags echo_host 3 cc_argv []
       = @from_envs bear_names echo_host 3 cc_argv []).
Proof.
  split.
  - apply (@mode_dispatch bear_names simple_flags echo_host
             "/usr/local/bin/wrapper" (tail wrapper_argv) []).
    reflexivity.
  - apply (@mode_dispatch bear_names simple_flags echo_host
             "/usr/lib/bear/wrapper.d/cc" (tail cc_argv) []).
    vm_compute. discriminate.
Defined.

(** An environment that binds [PATH] and [HOME] only. *)
Lemma missing_destination_fails_witness :
  @Wrapper.make_session bear_names (posix_env_from ["PATH=/usr/bin"; "HOME=/root"])
  = Err "Unknown destination."
  ∧ @from_envs bear_names echo_host 3 cc_argv ["PATH=/usr/bin"; "HOME=/root"]
    = Err "Unknown destination."
  ∧ @run bear_names simple_flags echo_host 3 cc_argv ["PATH=/usr/bin"; "HOME=/root"] untouched
    = (untouched, Some (Err "Unknown destination.")).
Proof.
  destruct (@missing_destination_fails bear_names simple_flags echo_host 3 cc_argv
              ["PATH=/usr/bin"; "HOME=/root"] untouched) as (Hsession & Hcommand & Hrun).
  - vm_compute. reflexivity.
  - split; [exact Hsession|]. split; [exact Hcommand|]. apply Hrun. reflexivity.
Defined.

(** C9 fails on this invocation: the destination variable is bound to the
    empty string, the command is built, and its destination is empty. *)
Lemma empty_destination_command :
  ∃ c, @from_envs bear_names echo_host 3 cc_argv ["INTERCEPT_REPORT_DESTINATION="] = Ok c
       ∧ destination (session_ c) = "".
Proof. eexists. split; reflexivity. Qed.

Lemma destination_is_the_configured_value_witness :
  posix_env_from ["INTERCEPT_REPORT_DESTINATION=/tmp/sess"] !! "INTERCEPT_REPORT_DESTINATION"
  = Some "/tmp/sess"
  ∧ @as_string simple_flags echo_flags "--destination" = Ok "/tmp/sess".
Proof.
  destruct (@destination_is_the_configured_value bear_names simple_flags echo_host
              3 cc_argv ["INTERCEPT_REPORT_DESTINATION=/tmp/sess"] echo_flags sess_command)
    as [Hwrapper _].
  destruct (@destination_is_the_configured_value bear_names simple_flags echo_host
              3 cc_argv [] echo_flags echo_command) as [_ Hsupervisor].
  split.
  - apply Hwrapper. vm_compute. reflexivity.
  - apply Hsupervisor. vm_compute. reflexivity.
Defined.

(** ** Every run of the engine *)

(** The loop, without recursion: it consumes the rounds before the first
    exited status, reports the signals among them and then the exit. *)
Lemma wait_loop_closed_form (outcomes : list (Result ExitStatus)) (w : World) :
  wait_loop outcomes w
  = ({| reported := reported w ++ (Signal <$> signal_rounds (until_exit outcomes))
                      ++ closing_events (leaving_status outcomes);
        launched := launched w; children := children w; forwarding := forwarding w;
        wait_calls := wait_calls w + S (length (until_exit outcomes));
        guarded_waits := guarded_waits w
                           ++ replicate (S (length (until_exit outcomes))) (forwarding w) |},
     leaving_status outcomes).
Proof.
  revert w. induction outcomes as [|status outcomes IH]; intros w.
  - cbn. by rewrite app_nil_r, Nat.add_1_r.
  - cbn [wait_loop until_exit leaving_status]. destruct (exited status) eqn:Hstatus.
    + destruct status as [[C|number]|error]; [|discriminate Hstatus..].
      cbn. by rewrite Nat.add_1_r.
    + rewrite IH. destruct status as [[C|number]|error]; [discriminate Hstatus| |];
        cbn; rewrite ?Nat.add_succ_r, <- ?app_assoc; done.
Qed.

(** The outcomes split at the status that leaves the loop. *)
Lemma leaving_status_split (outcomes : list (Result ExitStatus)) status :
  leaving_status outcomes = Some status →
  ∃ C after,
    status = Ok (Exited C)
    ∧ outcomes = until_exit outcomes ++ Ok (Exited C) :: after
    ∧ Forall (fun round => exited round = false) (until_exit outcomes).
Proof.
  induction outcomes as [|round outcomes IH]; [done|].
  cbn [leaving_status until_exit]. destruct (exited round) eqn:Hround.
  - intros [= <-]. destruct round as [[C|number]|error]; [|discriminate Hround..].
    by exists C, outcomes.
  - intros Hleaving. destruct (IH Hleaving) as (C & after & -> & Hsplit & Hbefore).
    exists C, after. split; [done|]. split; [cbn; by rewrite <- Hsplit|by constructor].
Qed.

(** No round leaves the loop exactly when no outcome is an exited status. *)
Lemma leaving_status_none (outcomes : list (Result ExitStatus)) :
  leaving_status outcomes = None
  ↔ Forall (fun round => exited round = false) outcomes.
Proof.
  induction outcomes as [|round outcomes IH]; [done|].
  cbn [leaving_status]. destruct (exited round) eqn:Hround.
  - split; [done|]. intros Hall. inversion Hall; congruence.
  - rewrite IH. split; [by constructor|]. intros Hall. by inversion Hall.
Qed.

Lemma until_exit_all (outcomes : list (Result ExitStatus)) :
  Forall (fun round => exited round = false) outcomes → until_exit outcomes = outcomes.
Proof.
  induction 1 as [|round outcomes Hround _ IH]; [done|].
  cbn. by rewrite Hround, IH.
Qed.

Section every_run.

Context `{Host}.

Implicit Types (c : Command) (w : World) (child : Process) (execution : Execution).

(** [execute] by cases on what resolve and spawn answer. *)
Lemma execute_cases c w :
  match resolve (session_ c) (execution_ c) with
  | Err error => execute c w = (w, Some (Err error))
  | Ok execution =>
      match spawn (builder_for execution) with
      | Err error =>
          execute c w
          = (record_spawn (builder_for execution) (Err error) w, Some (Err error))
      | Ok child =>
          execute c w
          = ({| reported :=
                  reported w ++ Start (get_pid child) getppid execution
                    :: (Signal <$> signal_rounds (until_exit (wait_outcomes child)))
                    ++ closing_events (leaving_status (wait_outcomes child));
                launched := launched w ++ [builder_for execution];
                children := children w ++ [child];
                forwarding := match leaving_status (wait_outcomes child) with
                              | Some _ => forwarding w
                              | None => child :: forwarding w
                              end;
                wait_calls := wait_calls w + S (length (until_exit (wait_outcomes child)));
                guarded_waits :=
                  guarded_waits w
                    ++ replicate (S (length (until_exit (wait_outcomes child))))
                         (child :: forwarding w) |},
             result.map exit_code <$> leaving_status (wait_outcomes child))
      end
  end.
Proof.
  unfold execute, supervise, action.map, action.and_then, action.answer,
    spawn_and_report, action.on_success, spawn_process, wait_for_exit.
  destruct (resolve _ _) as [execution|error]; [|done].
  destruct (spawn _) as [child|error]; [|done].
  rewrite wait_loop_closed_form.
  destruct (leaving_status _) as [status|]; cbn; by rewrite <- app_assoc.
Qed.

(** X1. A code [execute] returns is the exit code of the child: resolve and
    spawn succeeded, a wait saw the child exit with that code after rounds
    that did not leave the loop, and the last event reported is the
    [Terminate] with the same code. *)
Theorem returned_code_is_the_exit_code c w n :
  (execute c w).2 = Some (Ok n) →
  ∃ execution child before after,
    resolve (session_ c) (execution_ c) = Ok execution
    ∧ spawn (builder_for execution) = Ok child
    ∧ wait_outcomes child = before ++ Ok (Exited n) :: after
    ∧ Forall (fun status => exited status = false) before
    ∧ last (reported (execute c w).1) = Some (Terminate n).
Proof.
  pose proof (execute_cases c w) as Hcases.
  destruct (resolve _ _) as [execution|error]; [|by rewrite Hcases].
  destruct (spawn _) as [child|error] eqn:Hspawn; [|by rewrite Hcases].
  rewrite Hcases. cbn [snd fst reported].
  destruct (leaving_status _) as [status|] eqn:Hleaving; [|done].
  destruct (leaving_status_split _ _ Hleaving) as (C & after & -> & Hsplit & Hbefore).
  intros [= <-]. exists execution, child, (until_exit (wait_outcomes child)), after.
  repeat split; [done..|].
  cbn [closing_events exit_event].
  by rewrite app_comm_cons, !app_assoc, last_snoc.
Qed.

(** X2. An error [execute] returns is the error of resolve or the error of
    spawn: a wait that fails never becomes the result. *)
Theorem returned_error_is_of_resolve_or_spawn c w error :
  (execute c w).2 = Some (Err error) →
  resolve (session_ c) (execution_ c) = Err error
  ∨ ∃ execution, resolve (session_ c) (execution_ c) = Ok execution
                 ∧ spawn (builder_for execution) = Err error.
Proof.
  pose proof (execute_cases c w) as Hcases.
  destruct (resolve _ _) as [execution|error']; [|rewrite Hcases; intros [= ->]; by left].
  destruct (spawn _) as [child|error'] eqn:Hspawn.
  - rewrite Hcases. cbn [snd].
    destruct (leaving_status _) as [status|] eqn:Hleaving; [|done].
    by destruct (leaving_status_split _ _ Hleaving) as (C & after & -> & _).
  - rewrite Hcases. intros [= ->]. right. by exists execution.
Qed.

(** X3. When resolve and spawn succeed and no wait ever sees the child exit,
    [execute] does not return: it has reported the start and every signal,
    it has made every wait and is blocked in one more, and the guard is
    still in force. *)
Theorem execute_without_exit_never_returns c w execution child :
  resolve (session_ c) (execution_ c) = Ok execution →
  spawn (builder_for execution) = Ok child →
  Forall (fun status => exited status = false) (wait_outcomes child) →
  execute c w
  = ({| reported := reported w ++ Start (get_pid child) getppid execution
                      :: (Signal <$> signal_rounds (wait_outcomes child));
        launched := launched w ++ [builder_for execution];
        children := children w ++ [child];
        forwarding := child :: forwarding w;
        wait_calls := wait_calls w + S (length (wait_outcomes child));
        guarded_waits := guarded_waits w
                           ++ replicate (S (length (wait_outcomes child)))
                                (child :: forwarding w) |},
     None).
Proof.
  intros Hresolve Hspawn Hnever.
  pose proof (execute_cases c w) as Hcases. rewrite Hresolve, Hspawn in Hcases.
  rewrite Hcases, (until_exit_all _ Hnever).
  apply leaving_status_none in Hnever as ->. cbn. by rewrite app_nil_r.
Qed.

(** X4. [execute] fails to return in one way only: the child was spawned
    and no wait outcome is an exited status. *)
Theorem execute_returns_unless_child_never_exits c w :
  (execute c w).2 = None
  ↔ ∃ execution child,
      resolve (session_ c) (execution_ c) = Ok execution
      ∧ spawn (builder_for execution) = Ok child
      ∧ Forall (fun status => exited status = false) (wait_outcomes child).
Proof.
  pose proof (execute_cases c w) as Hcases. split.
  - destruct (resolve _ _) as [execution|error]; [|by rewrite Hcases].
    destruct (spawn _) as [child|error] eqn:Hspawn; [|by rewrite Hcases].
    rewrite Hcases. cbn [snd]. intros Hnone. exists execution, child.
    repeat split; [done|]. apply leaving_status_none.
    by destruct (leaving_status _).
  - intros (execution & child & Hresolve & Hspawn & Hnever).
    rewrite Hresolve, Hspawn in Hcases. rewrite Hcases.
    by apply leaving_status_none in Hnever as ->.
Qed.

(** X5. Whenever [execute] returns, with a code or with an error, signal
    forwarding is as it was before the call; when it does not return, the
    guard of the child it spawned is in force. *)
Theorem guard_is_scoped_to_the_wait c w :
  match (execute c w).2 with
  | Some _ => forwarding (execute c w).1 = forwarding w
  | None => ∃ child, children (execute c w).1 = children w ++ [child]
                     ∧ forwarding (execute c w).1 = child :: forwarding w
  end.
Proof.
  pose proof (execute_cases c w) as Hcases.
  destruct (resolve _ _) as [execution|error]; [|by rewrite Hcases].
  destruct (spawn _) as [child|error]; [|by rewrite Hcases].
  rewrite Hcases. cbn [fst snd].
  destruct (leaving_status _) as [status|]; cbn; [done|by exists child].
Qed.

(** X6. Every run is of one of three kinds.  It returns an error and has
    reported nothing; or it does not return and has reported the start and
    then signals only; or it returns the code [C] and has reported the
    start, then signals only, then [Terminate C]. *)
Theorem events_of_any_run c w :
  ∃ events,
    reported (execute c w).1 = reported w ++ events
    ∧ ((events = [] ∧ ∃ error, (execute c w).2 = Some (Err error))
       ∨ ∃ child execution numbers,
           (events = Start (get_pid child) getppid execution :: (Signal <$> numbers)
            ∧ (execute c w).2 = None)
           ∨ ∃ C, events = Start (get_pid child) getppid execution
                             :: (Signal <$> numbers) ++ [Terminate C]
                  ∧ (execute c w).2 = Some (Ok C)).
Proof.
  pose proof (execute_cases c w) as Hcases.
  destruct (resolve _ _) as [execution|error].
  - destruct (spawn _) as [child|error]; rewrite Hcases; cbn [fst snd reported].
    + eexists. split; [reflexivity|]. right.
      exists child, execution, (signal_rounds (until_exit (wait_outcomes child))).
      destruct (leaving_status _) as [status|] eqn:Hleaving.
      * destruct (leaving_status_split _ _ Hleaving) as (C & after & -> & _).
        right. by exists C.
      * left. cbn. by rewrite app_nil_r.
    + exists []. cbn. rewrite app_nil_r. split; [done|]. left. split; [done|by exists error].
  - rewrite Hcases. exists []. cbn. rewrite app_nil_r.
    split; [done|]. left. split; [done|by exists error].
Qed.

(** X7. [execute] calls spawn at most once, creates at most the child of
    that call, and reports a [Start] exactly when a child was created. *)
Theorem spawn_accounting c w :
  ∃ events,
    reported (execute c w).1 = reported w ++ events
    ∧ length (children (execute c w).1)
      = (length (children w) + count_events is_start events)%nat
    ∧ (length (children (execute c w).1) - length (children w)
       ≤ length (launched (execute c w).1) - length (launched w))%nat
    ∧ (length (launched (execute c w).1) ≤ S (length (launched w)))%nat.
Proof.
  pose proof (execute_cases c w) as Hcases.
  destruct (resolve _ _) as [execution|error].
  - destruct (spawn _) as [child|error]; rewrite Hcases; cbn [fst snd reported children launched].
    + eexists. split; [reflexivity|].
      unfold count_events. cbn [List.filter is_start].
      rewrite List.filter_app, no_start_among_signals, !length_app. cbn [app length].
      assert (List.filter is_start (closing_events (leaving_status (wait_outcomes child))) = [])
        as ->.
      { destruct (leaving_status _) as [[[C|number]|error]|]; done. }
      cbn. lia.
    + exists []. cbn. rewrite !app_nil_r, length_app. cbn. split; [done|lia].
  - rewrite Hcases. exists []. cbn. rewrite app_nil_r. split; [done|lia].
Qed.

End every_run.

(** ** Every construction *)

Section every_construction.

Context `{Names, Flags, Host}.

Implicit Types (argc : Z) (argv envp : list string) (args : Arguments_) (c : Command).

(** What a command built on the wrapper-call path is made of. *)
Lemma from_envs_inv argc argv envp c :
  from_envs argc argv envp = Ok c →
  ∃ value dir,
    env_from envp !! KEY_DESTINATION = Some value
    ∧ get_cwd = Ok dir
    ∧ c = {| session_ := {| destination := value |};
             execution_ := {| executable := argv0 argv; arguments := argv;
                              working_dir := dir; environment := env_from envp |} |}.
Proof.
  unfold from_envs, Wrapper.make_session, Wrapper.make_execution, Wrapper.from.
  destruct (env_from envp !! KEY_DESTINATION) as [value|]; [|done].
  destruct get_cwd as [dir|]; [|done].
  intros [= <-]. by exists value, dir.
Qed.

(** What a command built on the supervisor-call path is made of. *)
Lemma from_args_inv args envp c :
  from_args args envp = Ok c →
  ∃ value file words dir,
    as_string args DESTINATION = Ok value
    ∧ as_string args EXECUTE = Ok file
    ∧ as_string_list args COMMAND = Ok words
    ∧ get_cwd = Ok dir
    ∧ c = {| session_ := {| destination := value |};
             execution_ := {| executable := file; arguments := words;
                              working_dir := dir; environment := env_from envp |} |}.
Proof.
  unfold from_args, Supervisor.make_session, Supervisor.make_execution.
  destruct (as_string args DESTINATION) as [value|]; [|done].
  destruct (as_string args EXECUTE) as [file|]; [|done].
  destruct (as_string_list args COMMAND) as [words|]; [|done].
  destruct get_cwd as [dir|]; [|done].
  intros [= <-]. by exists value, file, words, dir.
Qed.

(** X8. For an [argv] with at least one entry, the wrapper-call path builds
    a command exactly when the destination variable is bound and the
    working directory can be read.  The command then runs [argv[0]] with
    the whole of [argv] as its arguments and the whole inherited
    environment, whatever [argc] is. *)
Theorem from_envs_builds_from_argv_and_environment argc first rest envp c :
  from_envs argc (first :: rest) envp = Ok c
  ↔ ∃ value dir,
      env_from envp !! KEY_DESTINATION = Some value
      ∧ get_cwd = Ok dir
      ∧ c = {| session_ := {| destination := value |};
               execution_ := {| executable := first; arguments := first :: rest;
                                working_dir := dir; environment := env_from envp |} |}.
Proof.
  split; [apply from_envs_inv|].
  intros (value & dir & Hvalue & Hdir & ->).
  unfold from_envs, Wrapper.make_session, Wrapper.make_execution, Wrapper.from.
  by rewrite Hvalue, Hdir.
Qed.

(** X9. The supervisor-call path builds a command exactly when the
    destination, the executable and the command arguments are given by the
    flags and the working directory can be read.  The environment variables
    decide nothing but the environment of the execution. *)
Theorem from_args_builds_from_flags args envp c :
  from_args args envp = Ok c
  ↔ ∃ value file words dir,
      as_string args DESTINATION = Ok value
      ∧ as_string args EXECUTE = Ok file
      ∧ as_string_list args COMMAND = Ok words
      ∧ get_cwd = Ok dir
      ∧ c = {| session_ := {| destination := value |};
               execution_ := {| executable := file; arguments := words;
                                working_dir := dir; environment := env_from envp |} |}.
Proof.
  split; [apply from_args_inv|].
  intros (value & file & words & dir & Hvalue & Hfile & Hwords & Hdir & ->).
  unfold from_args, Supervisor.make_session, Supervisor.make_execution.
  by rewrite Hvalue, Hfile, Hwords, Hdir.
Qed.

(** X10. Mode detection looks at the last component of [argv[0]] only: for a
    name [base] without separators, reached through any directory [dir],
    the call is a wrapper-call exactly when [base] is not [wrapper]. *)
Theorem is_wrapper_call_by_path (dir base : string) (rest : list string) :
  plain_name base = true →
  is_wrapper_call (Z.of_nat (length ((dir +:+ String "/"%char base) :: rest)))
    ((dir +:+ String "/"%char base) :: rest)
  = bool_decide (base ≠ "wrapper").
Proof.
  intros Hbase. unfold is_wrapper_call.
  rewrite bool_decide_eq_true_2 by (cbn [length]; lia).
  cbn [argv0 head default id]. by rewrite filename_of_path.
Qed.

(** X12. A wrapper-call the supervisor lets through unchanged launches
    [argv[0]] with the wrapper's own [argv] and environment, and the start
    event describes that execution in the wrapper's working directory. *)
Theorem wrapper_call_launches_own_argv argc argv envp c (w : World) child :
  from_envs argc argv envp = Ok c →
  resolve (session_ c) (execution_ c) = Ok (execution_ c) →
  spawn (builder_for (execution_ c)) = Ok child →
  launched (execute c w).1
  = launched w ++ [{| program := argv0 argv; parameters := argv;
                      variables := env_from envp |}]
  ∧ ∃ dir later,
      get_cwd = Ok dir
      ∧ reported (execute c w).1
        = reported w
            ++ Start (get_pid child) getppid
                 {| executable := argv0 argv; arguments := argv;
                    working_dir := dir; environment := env_from envp |}
            :: later.
Proof.
  intros Hbuilt Hresolve Hspawn.
  destruct (from_envs_inv _ _ _ _ Hbuilt) as (value & dir & _ & Hdir & ->).
  pose proof (execute_cases
                {| session_ := {| destination := value |};
                   execution_ := {| executable := argv0 argv; arguments := argv;
                                    working_dir := dir; environment := env_from envp |} |} w)
    as Hcases.
  rewrite Hresolve, Hspawn in Hcases. rewrite Hcases. cbn [fst launched reported].
  split; [done|]. exists dir. eexists. split; [done|reflexivity].
Qed.

(** X13. A supervisor-call the supervisor lets through unchanged launches
    the executable of the [EXECUTE] flag with the words of the [COMMAND]
    flag as its arguments and the inherited environment. *)
Theorem supervisor_call_launches_flagged_command args envp c (w : World) child file words :
  from_args args envp = Ok c →
  as_string args EXECUTE = Ok file →
  as_string_list args COMMAND = Ok words →
  resolve (session_ c) (execution_ c) = Ok (execution_ c) →
  spawn (builder_for (execution_ c)) = Ok child →
  launched (execute c w).1
  = launched w ++ [{| program := file; parameters := words; variables := env_from envp |}]
  ∧ children (execute c w).1 = children w ++ [child].
Proof.
  intros Hbuilt Hfile Hwords Hresolve Hspawn.
  destruct (from_args_inv _ _ _ Hbuilt)
    as (value & file' & words' & dir & _ & Hfile' & Hwords' & _ & ->).
  rewrite Hfile in Hfile'. rewrite Hwords in Hwords'.
  injection Hfile' as <-. injection Hwords' as <-.
  pose proof (execute_cases
                {| session_ := {| destination := value |};
                   execution_ := {| executable := file; arguments := words;
                                    working_dir := dir; environment := env_from envp |} |} w)
    as Hcases.
  rewrite Hresolve, Hspawn in Hcases. by rewrite Hcases.
Qed.

End every_construction.

(** X11. On a wrapper-call the flags are not consulted: the command is the
    same with any parser, and so does not depend on what follows [argv[0]]
    being flags of the wrapper or not. *)
Theorem wrapper_call_ignores_flags `{Names, Host} (parser other : Flags)
    (argc : Z) (argv envp : list string) :
  is_wrapper_call argc argv = true →
  @command _ parser _ argc argv envp = @command _ other _ argc argv envp.
Proof. intros Hmode. unfold command. by rewrite Hmode. Qed.

(** X14. The run in which the child exits, in full: one spawn, one child,
    one wait for each round up to the exit and none after it, the guard
    released, and the exit code returned. *)
Theorem execute_on_exit `{Host} (c : Command) (w : World) execution child before C after :
  resolve (session_ c) (execution_ c) = Ok execution →
  spawn (builder_for execution) = Ok child →
  wait_outcomes child = before ++ Ok (Exited C) :: after →
  Forall (fun status => exited status = false) before →
  execute c w
  = ({| reported := reported w ++ Start (get_pid child) getppid execution
                      :: (Signal <$> signal_rounds before) ++ [Terminate C];
        launched := launched w ++ [builder_for execution];
        children := children w ++ [child];
        forwarding := forwarding w;
        wait_calls := wait_calls w + S (length before);
        guarded_waits := guarded_waits w
                           ++ replicate (S (length before)) (child :: forwarding w) |},
     Some (Ok C)).
Proof.
  intros Hresolve Hspawn Hwait Hbefore. unfold execute, action.map.
  by rewrite (supervise_completes c w execution child before C after).
Qed.

(** ** The further statements on concrete runs *)

Lemma returned_code_is_the_exit_code_witness :
  ∃ execution child before after,
    @resolve signalled_host (session_ echo_command) (execution_ echo_command) = Ok execution
    ∧ @spawn signalled_host (builder_for execution) = Ok child
    ∧ @wait_outcomes signalled_host child = before ++ Ok (Exited 3) :: after
    ∧ Forall (fun status => exited status = false) before
    ∧ last (reported (@execute signalled_host echo_command untouched).1)
      = Some (Terminate 3).
Proof.
  apply (@returned_code_is_the_exit_code signalled_host echo_command untouched 3).
  reflexivity.
Defined.

Lemma returned_error_is_of_resolve_or_spawn_witness :
  @resolve unspawnable_host (session_ echo_command) (execution_ echo_command)
  = Err "spawn failed"
  ∨ ∃ execution,
      @resolve unspawnable_host (session_ echo_command) (execution_ echo_command)
      = Ok execution
      ∧ @spawn unspawnable_host (builder_for execution) = Err "spawn failed".
Proof.
  apply (@returned_error_is_of_resolve_or_spawn unspawnable_host echo_command untouched
           "spawn failed").
  reflexivity.
Defined.

(** The child is killed by a signal and never seen to exit: the wrapper
    reports the signal and goes on waiting. *)
Lemma execute_without_exit_never_returns_witness :
  @execute killed_host echo_command untouched
  = ({| reported := [Start 42 41 echo_execution; Signal 9];
        launched := [builder_for echo_execution];
        children := [echo_child];
        forwarding := [echo_child];
        wait_calls := 3;
        guarded_waits := [[echo_child]; [echo_child]; [echo_child]] |},
     None).
Proof.
  apply (@execute_without_exit_never_returns killed_host echo_command untouched
           echo_execution echo_child).
  - reflexivity.
  - reflexivity.
  - repeat constructor.
Defined.

Lemma is_wrapper_call_by_path_witness :
  is_wrapper_call 8 wrapper_argv = false ∧ is_wrapper_call 3 cc_argv = true.
Proof.
  split.
  - apply (is_wrapper_call_by_path "/usr/local/bin" "wrapper" (tail wrapper_argv)).
    reflexivity.
  - apply (is_wrapper_call_by_path "/usr/lib/bear/wrapper.d" "cc" (tail cc_argv)).
    reflexivity.
Defined.

Lemma wrapper_call_ignores_flags_witness :
  @command bear_names simple_flags echo_host 3 cc_argv ["INTERCEPT_REPORT_DESTINATION=/tmp/sess"]
  = @command bear_names no_flags echo_host 3 cc_argv ["INTERCEPT_REPORT_DESTINATION=/tmp/sess"].
Proof.
  apply (@wrapper_call_ignores_flags bear_names echo_host simple_flags no_flags).
  reflexivity.
Defined.

Lemma wrapper_call_launches_own_argv_witness :
  launched (@execute echo_host sess_command untouched).1
  = [] ++ [{| program := "/usr/lib/bear/wrapper.d/cc"; parameters := cc_argv;
              variables := posix_env_from ["INTERCEPT_REPORT_DESTINATION=/tmp/sess"] |}]
  ∧ ∃ dir later,
      @get_cwd echo_host = Ok dir
      ∧ reported (@execute echo_host sess_command untouched).1
        = [] ++ Start 42 41
                  {| executable := "/usr/lib/bear/wrapper.d/cc"; arguments := cc_argv;
                     working_dir := dir;
                     environment := posix_env_from ["INTERCEPT_REPORT_DESTINATION=/tmp/sess"] |}
             :: later.
Proof.
  apply (@wrapper_call_launches_own_argv bear_names echo_host 3 cc_argv
           ["INTERCEPT_REPORT_DESTINATION=/tmp/sess"] sess_command untouched echo_child).
  - vm_compute. reflexivity.
  - reflexivity.
  - reflexivity.
Defined.

Lemma supervisor_call_launches_flagged_command_witness :
  launched (@execute echo_host echo_command untouched).1
  = [] ++ [{| program := "/bin/echo"; parameters := ["echo"; "hi"];
              variables := posix_env_from [] |}]
  ∧ children (@execute echo_host echo_command untouched).1 = [] ++ [echo_child].
Proof.
  apply (@supervisor_call_launches_flagged_command bear_names simple_flags echo_host
           echo_flags [] echo_command untouched echo_child "/bin/echo" ["echo"; "hi"]).
  - vm_compute. reflexivity.
  - vm_compute. reflexivity.
  - vm_compute. reflexivity.
  - reflexivity.
  - reflexivity.
Defined.

Lemma execute_on_exit_witness :
  @execute signalled_host echo_command untouched
  = ({| reported := [Start 42 41 echo_execution; Signal 19; Signal 18; Terminate 3];
        launched := [builder_for echo_execution];
        children := [echo_child];
        forwarding := [];
        wait_calls := 3;
        guarded_waits := [[echo_child]; [echo_child]; [echo_child]] |},
     Some (Ok 3)).
Proof.
  apply (@execute_on_exit signalled_host echo_command untouched echo_execution echo_child
           [Ok (Signaled 19); Ok (Signaled 18)] 3 []).
  - reflexivity.
  - reflexivity.
  - reflexivity.
  - repeat constructor.
Defined.

(** ** The exit code and the guard *)


(** The rounds before the exit are made whatever follows them. *)
Lemma until_exit_app (before outcomes : list (Result ExitStatus)) :
  Forall (fun status => exited status = false) before →
  until_exit (before ++ outcomes) = before ++ until_exit outcomes.
Proof.
  induction 1 as [|status before Hstatus _ IH]; [done|].
  cbn. by rewrite Hstatus, IH.
Qed.

Section exit_code_and_guard.

Context `{Host}.

Implicit Types (c : Command) (w : World) (child : Process) (execution : Execution).

(** The wait stage, without recursion. *)
Lemma wait_for_exit_closed_form child w :
  wait_for_exit child w
  = ({| reported := reported w
                      ++ (Signal <$> signal_rounds (until_exit (wait_outcomes child)))
                      ++ closing_events (leaving_status (wait_outcomes child));
        launched := launched w; children := children w;
        forwarding := match leaving_status (wait_outcomes child) with
                      | Some _ => forwarding w
                      | None => child :: forwarding w
                      end;
        wait_calls := wait_calls w + S (length (until_exit (wait_outcomes child)));
        guarded_waits :=
          guarded_waits w
            ++ replicate (S (length (until_exit (wait_outcomes child))))
                 (child :: forwarding w) |},
     leaving_status (wait_outcomes child)).
Proof.
  unfold wait_for_exit. rewrite wait_loop_closed_form.
  by destruct (leaving_status _).
Qed.


(** C3, as the code has it.  A wait that fails is not terminal: nothing is
    reported for it and the loop waits again, so the stage returns and
    reports what it would without that wait, after one more wait.  The loop
    is left only on an exited status.  Every wait of the stage is made with
    the guard of the child in force; the guard is released when the loop is
    left and is in force as long as it is not. *)
Theorem failed_wait_is_retried_under_guard child w before error after :
  wait_outcomes child = before ++ Err error :: after →
  let stage := wait_for_exit child w in
  let without := wait_loop (before ++ after) (install_guard child w) in
  stage.2 = without.2
  ∧ reported stage.1 = reported without.1
  ∧ (Forall (fun status => exited status = false) before →
       wait_calls stage.1 = S (wait_calls without.1))
  ∧ (wait_calls w < wait_calls stage.1)%nat
  ∧ guarded_waits stage.1
    = guarded_waits w
        ++ replicate (wait_calls stage.1 - wait_calls w) (child :: forwarding w)
  ∧ match stage.2 with
    | Some status => (∃ C, status = Ok (Exited C)) ∧ forwarding stage.1 = forwarding w
    | None => forwarding stage.1 = child :: forwarding w
    end.
Proof.
  intros Hwait stage without.
  pose proof (wait_loop_skips_failure before after error (install_guard child w))
    as [Hresult Hreported].
  assert (stage.2 = without.2 ∧ reported stage.1 = reported without.1) as [Hsame Hsaid].
  { subst stage without. unfold wait_for_exit. rewrite Hwait.
    destruct (wait_loop (before ++ Err error :: after) _) as [w' [status|]];
      cbn in *; done. }
  split; [done|]. split; [done|].
  subst stage without. rewrite wait_for_exit_closed_form, wait_loop_closed_form.
  cbn [fst snd wait_calls guarded_waits forwarding install_guard].
  split; [|split; [lia|split]].
  - intros Hbefore. rewrite Hwait, !until_exit_app by done.
    cbn [until_exit exited result.map result.unwrap_or].
    rewrite !length_app. cbn [length]. lia.
  - do 2 f_equal. lia.
  - destruct (leaving_status (wait_outcomes child)) as [status|] eqn:Hleaving; [|done].
    split; [|done].
    destruct (leaving_status_split _ _ Hleaving) as (C & rest & -> & _). by exists C.
Qed.

End exit_code_and_guard.

(** ** The lookups of the two paths *)

Section lookups.

Context `{Names, Flags, Host}.

Implicit Types (argc : Z) (argv envp : list string) (args : Arguments_) (w : World).

(** C8, as the code has it.  On the supervisor-call path the execution is
    merged from the lookups of program, arguments and working directory
    and exists only if all three succeeded.  On the wrapper-call path
    program and arguments are the entries of a non-empty [argv] and the
    execution is built exactly when the working directory is obtained.
    On either path a failure leaves no command, and the run ends with an
    error and spawns nothing. *)
Theorem execution_lookups_by_path argc first rest envp args w :
  built_from (as_string args EXECUTE) (as_string_list args COMMAND) get_cwd
    (env_from envp) (Supervisor.make_execution args (env_from envp))
  ∧ (∀ built, Wrapper.make_execution (first :: rest) (env_from envp) = Ok built
              ↔ ∃ dir, get_cwd = Ok dir
                       ∧ built = {| executable := first; arguments := first :: rest;
                                    working_dir := dir; environment := env_from envp |})
  ∧ result.is_ok (Wrapper.make_execution (first :: rest) (env_from envp))
    = result.is_ok get_cwd
  ∧ (∀ argv, result.is_ok (Supervisor.make_execution args (env_from envp)) = false →
       result.is_ok (from_args args envp) = false
       ∧ (is_wrapper_call argc argv = false → parse argc argv = Ok args →
            ∃ error, run argc argv envp w = (w, Some (Err error))))
  ∧ (result.is_ok (Wrapper.make_execution (first :: rest) (env_from envp)) = false →
       result.is_ok (from_envs argc (first :: rest) envp) = false
       ∧ (is_wrapper_call argc (first :: rest) = true →
            ∃ error, run argc (first :: rest) envp w = (w, Some (Err error)))).
Proof.
  split; [|split; [|split; [|split]]].
  - unfold built_from, Supervisor.make_execution.
    by destruct (as_string args EXECUTE), (as_string_list args COMMAND), get_cwd.
  - intros built. unfold Wrapper.make_execution, Wrapper.from. cbn [argv0 head default id].
    destruct get_cwd as [dir|error]; cbn.
    + split; [intros [= <-]; by exists dir|]. by intros (dir' & [= <-] & ->).
    + split; [done|]. by intros (dir & ? & _).
  - unfold Wrapper.make_execution. by destruct get_cwd.
  - intros argv Hfailed.
    assert (result.is_ok (from_args args envp) = false) as Hnone.
    { unfold from_args. rewrite map_keeps_failure. by apply merge_needs_execution. }
    split; [done|]. intros Hmode Hparse.
    destruct (failure_has_error _ Hnone) as [error Herror]. exists error.
    apply run_without_command. unfold command. by rewrite Hmode, Hparse.
  - intros Hfailed.
    assert (result.is_ok (from_envs argc (first :: rest) envp) = false) as Hnone.
    { unfold from_envs. rewrite map_keeps_failure. by apply merge_needs_execution. }
    split; [done|]. intros Hmode.
    destruct (failure_has_error _ Hnone) as [error Herror]. exists error.
    apply run_without_command. unfold command. by rewrite Hmode.
Qed.

End lookups.

(** ** The statements of the last three sections on concrete runs *)



(** The first wait fails: the stage waits twice, both times under the guard
    of the child, returns the exit and has released the guard. *)
Lemma failed_wait_is_retried_under_guard_witness :
  (@wait_for_exit failing_wait_host echo_child untouched).2 = Some (Ok (Exited 0))
  ∧ reported (@wait_for_exit failing_wait_host echo_child untouched).1 = [Terminate 0]
  ∧ wait_calls (@wait_for_exit failing_wait_host echo_child untouched).1 = 2%nat
  ∧ guarded_waits (@wait_for_exit failing_wait_host echo_child untouched).1
    = [[echo_child]; [echo_child]]
  ∧ forwarding (@wait_for_exit failing_wait_host echo_child untouched).1 = [].
Proof.
  destruct (@failed_wait_is_retried_under_guard failing_wait_host echo_child untouched []
              "wait failed" [Ok (Exited 0)] eq_refl)
    as (Hresult & Hreported & Hcalls & _ & Hguarded & Hreleased).
  split; [exact Hresult|]. split; [exact Hreported|].
  split; [exact (Hcalls (Forall_nil_2 _))|]. split; [exact Hguarded|].
  exact (proj2 Hreleased).
Defined.

(** C8 fails on this invocation: the wrapper is called under an empty name,
    and the wrapper-call path builds the execution all the same.  Nothing
    but the working directory can fail on that path. *)
Lemma wrapper_execution_has_one_lookup :
  @Wrapper.make_execution echo_host [""] ∅
  = Ok {| executable := ""; arguments := [""]; working_dir := "/tmp"; environment := ∅ |}
  ∧ (∃ c, @from_envs bear_names echo_host 1 [""] sess_envp = Ok c
          ∧ executable (execution_ c) = "")
  ∧ (∀ (host : Host) (first : string) (rest : list string) (environment : Vars),
       result.is_ok (@Wrapper.make_execution host (first :: rest) environment)
       = result.is_ok (@get_cwd host)).
Proof.
  split; [reflexivity|]. split; [eexists; split; reflexivity|].
  intros host first rest environment. unfold Wrapper.make_execution.
  by destruct get_cwd.
Qed.

(** No executable is named to the supervisor-call; the working directory of
    the wrapper-call cannot be read though the destination is bound. *)
Lemma execution_lookups_by_path_witness :
  (result.is_ok (@from_args bear_names simple_flags echo_host no_execute_flags []) = false
   ∧ ∃ error, @run bear_names simple_flags echo_host 6 no_execute_argv [] untouched
              = (untouched, Some (Err error)))
  ∧ (result.is_ok (@from_envs bear_names no_cwd_host 3 cc_argv sess_envp) = false
     ∧ ∃ error, @run bear_names simple_flags no_cwd_host 3 cc_argv sess_envp untouched
                = (untouched, Some (Err error))).
Proof.
  split.
  - destruct (@execution_lookups_by_path bear_names simple_flags echo_host
                6 "/usr/local/bin/wrapper" (tail no_execute_argv) [] no_execute_flags
                untouched) as (_ & _ & _ & Hsupervisor & _).
    destruct (Hsupervisor no_execute_argv) as [Hnone Hrun]; [reflexivity|].
    split; [exact Hnone|]. apply Hrun; [reflexivity|]. vm_compute. reflexivity.
  - destruct (@execution_lookups_by_path bear_names simple_flags no_cwd_host
                3 "/usr/lib/bear/wrapper.d/cc" (tail cc_argv) sess_envp echo_flags
                untouched) as (_ & _ & _ & _ & Hwrapper).
    destruct Hwrapper as [Hnone Hrun]; [reflexivity|].
    split; [exact Hnone|]. apply Hrun. reflexivity.
Defined.
